(** * Tic Tac Toe (src/tic_tac_toe_frontend/src/App.js)

    A shallow embedding of the game logic of the [App] component: the pure
    helpers [calculateWinner] and [getRandomEmptyIndex], the React state of
    the component as a record, its handlers [handleSquare], [handleReset]
    and [handleModeChange] as state transformers, and the two effects
    (winner detection, computer move) as functions run after a handler.

    Reading guide for the specification's vocabulary:
    - markA / markB are the strings "X" / "O" ([MarkX] / [MarkO]);
    - an empty cell is [null] ([Null]);
    - evaluate is [calculateWinner]: [None] is InProgress,
      [Some {winner := WinnerDraw; winLine := []}] is Draw and
      [Some {winner := WinnerMark m; winLine := t}] is Win(m, t);
    - applyMove is [handleSquare] followed by the winner-detection effect
      ([applyMove] below); reset is [handleReset];
    - selectComputerMove is [getRandomEmptyIndex]. *)

From stdpp Require Import base numbers list strings.

(** ** Data *)

(** The two entries of [PLAYER_MARKS]. *)
Inductive mark := MarkX | MarkO.

(** What a slot of the [squares] array can hold: [null], one of the two mark
    strings, or nothing at all (a hole left by a write past the end of the
    array).  A hole, like an index past the end, reads as [undefined]. *)
Inductive cell := Null | Hole | Mk (m : mark).

(** The [key]s of [MODES]. *)
Inductive modeKey := pvp | ai.

(** The [winner] field of the object [calculateWinner] returns: the mark
    found in the line, or the string "Draw". *)
Inductive winnerVal := WinnerMark (m : mark) | WinnerDraw.

Module Result.
Record t := make { winner : winnerVal; winLine : list nat }.
End Result.

#[global] Instance mark_eq_dec : EqDecision mark.
Proof. solve_decision. Defined.
#[global] Instance cell_eq_dec : EqDecision cell.
Proof. solve_decision. Defined.
#[global] Instance modeKey_eq_dec : EqDecision modeKey.
Proof. solve_decision. Defined.
#[global] Instance winnerVal_eq_dec : EqDecision winnerVal.
Proof. solve_decision. Defined.
#[global] Instance result_eq_dec : EqDecision Result.t.
Proof. solve_decision. Defined.

Definition markString (m : mark) : string :=
  match m with MarkX => "X" | MarkO => "O" end%string.

Definition otherMark (m : mark) : mark :=
  match m with MarkX => MarkO | MarkO => MarkX end.

(** ** Arrays *)

(** [squares[i]]: a missing index reads as [undefined], like a hole. *)
Definition get (squares : list cell) (i : nat) : cell :=
  default Hole (squares !! i).

(** JavaScript truthiness of a slot: only the (non-empty) mark strings. *)
Definition truthy (c : cell) : bool :=
  match c with Mk _ => true | Null | Hole => false end.

(** [===] on slots. *)
Definition strictEq (c d : cell) : bool := bool_decide (c = d).

(** The array indices of JavaScript: the integers below [2^32 - 1].  Only
    for these is [arr[i] = v] a write to an element of the array; a larger
    [i] names an ordinary property and the array keeps its length. *)
Definition arrayIndex (i : nat) : Prop := (Z.of_nat i < 2 ^ 32 - 1)%Z.

(** [arr[i] = v] on a copy, for an array index [i]: inside the array the
    slot is overwritten; past the end the array grows and the slots in
    between are holes.  (Statements about a write past the end carry
    [arrayIndex i].) *)
Definition arraySet (arr : list cell) (i : nat) (v : cell) : list cell :=
  if decide (i < length arr) then <[i:=v]> arr
  else arr ++ replicate (i - length arr) Hole ++ [v].

(** [squares.includes(null)]: holes are compared as [undefined]. *)
Definition includesNull (squares : list cell) : bool :=
  existsb (λ c, bool_decide (c = Null)) squares.

(** ** calculateWinner *)

Definition line : Type := nat * nat * nat.

Definition lines : list line :=
  [ (0,1,2); (3,4,5); (6,7,8);
    (0,3,6); (1,4,7); (2,5,8);
    (0,4,8); (2,4,6) ].

(** The array [[a, b, c]] a line is in the source. *)
Definition lineCells (l : line) : list nat :=
  let '(a, b, c) := l in [a; b; c].

(** The [for (let line of lines)] loop, from the line it has reached:
    [None] when it falls through. *)
Fixpoint scanLines (squares : list cell) (ls : list line) : option Result.t :=
  match ls with
  | [] => None
  | (a, b, c) :: rest =>
      match get squares a with
      | Mk m =>
          if strictEq (get squares a) (get squares b)
             && strictEq (get squares a) (get squares c)
          then Some (Result.make (WinnerMark m) (lineCells (a, b, c)))
          else scanLines squares rest
      | Null | Hole => scanLines squares rest
      end
  end.

Definition calculateWinner (squares : list cell) : option Result.t :=
  match scanLines squares lines with
  | Some r => Some r
  | None =>
      if negb (includesNull squares)
      then Some (Result.make WinnerDraw [])
      else None
  end.

(** ** getRandomEmptyIndex *)

(** A slot of [squares.map((x,i) => x ? null : i)]: [map] does not call its
    function on holes and leaves them holes. *)
Inductive mapped := MNull | MHole | MIndex (i : nat).

Definition emptyOrNull (i : nat) (x : cell) : mapped :=
  match x with
  | Hole => MHole
  | Null => MIndex i
  | Mk _ => MNull
  end.

(** [.filter((x) => x !== null)]: [filter] skips holes too. *)
Definition keepIndex (x : mapped) : option nat :=
  match x with MIndex i => Some i | MNull | MHole => None end.

Definition empties (squares : list cell) : list nat :=
  omap keepIndex (imap emptyOrNull squares).

(** A value of [Math.random()]: the rational [rnum / (rnum + rgap + 1)],
    which is at least 0 and below 1 whatever the two fields are. *)
Record random := { rnum : nat; rgap : nat }.

(** [Math.floor(r * n)] for the rational [r]. *)
Definition floorTimes (r : random) (n : nat) : nat :=
  (rnum r * n) `div` (rnum r + rgap r + 1).

(** [None] is the [null] of the source. *)
Definition getRandomEmptyIndex (squares : list cell) (r : random) : option nat :=
  let es := empties squares in
  if decide (length es = 0) then None
  else es !! floorTimes r (length es).

(** ** The component state *)

Record state := {
  mode : modeKey;
  squares : list cell;
  step : nat;
  isXNext : bool;
  status : string;
  winLine : option (list nat)
}.

#[global] Instance state_eq_dec : EqDecision state.
Proof. solve_decision. Defined.

(** The [useState] initial values. *)
Definition initial : state :=
  {| mode := pvp; squares := replicate 9 Null; step := 0; isXNext := true;
     status := ""%string; winLine := None |}.

(** The body of the "game winner detection" effect. *)
Definition statusOf (res : option Result.t) (xNext : bool) : string :=
  match res with
  | Some r =>
      match Result.winner r with
      | WinnerDraw => "It's a Draw!"
      | WinnerMark m => "Winner: " +:+ markString m
      end
  | None => "Current: " +:+ (if xNext then "X" else "O")
  end%string.

Definition winnerEffect (s : state) : state :=
  let result := calculateWinner (squares s) in
  {| mode := mode s; squares := squares s; step := step s;
     isXNext := isXNext s;
     status := statusOf result (isXNext s);
     winLine := Result.winLine <$> result |}.

(** [winLine] as a condition: [null] is falsy, every array (the empty one
    of a draw too) is truthy. *)
Definition truthyLine (w : option (list nat)) : bool :=
  match w with Some _ => true | None => false end.

(** [markOverride || (isXNext ? 'X' : 'O')] *)
Definition markFor (s : state) (markOverride : option mark) : mark :=
  match markOverride with
  | Some m => m
  | None => if isXNext s then MarkX else MarkO
  end.

(** [handleSquare(i, markOverride)]: the state after the setters it calls;
    an early [return] calls none and leaves the state as it is. *)
Definition handleSquare (s : state) (i : nat) (markOverride : option mark) : state :=
  if truthyLine (winLine s) || truthy (get (squares s) i) then s
  else
    let mark := markFor s markOverride in
    if bool_decide (mode s = ai) && negb (isXNext s)
       && negb (bool_decide (is_Some markOverride))
    then s
    else
      let nextSquares := arraySet (squares s) i (Mk mark) in
      {| mode := mode s; squares := nextSquares; step := step s + 1;
         isXNext := negb (isXNext s);
         status := status s; winLine := winLine s |}.

Definition handleReset (s : state) : state :=
  {| mode := mode s; squares := replicate 9 Null; step := 0; isXNext := true;
     status := "Current: X"%string; winLine := None |}.

Definition setMode (modeKey : modeKey) (s : state) : state :=
  {| mode := modeKey; squares := squares s; step := step s;
     isXNext := isXNext s; status := status s; winLine := winLine s |}.

Definition handleModeChange (modeKey : modeKey) (s : state) : state :=
  handleReset (setMode modeKey s).

(** ** Rendering: handlers followed by effects *)

(** A handler that called its setters makes the component render again, and
    the winner-detection effect (dependencies [squares], [isXNext]) runs;
    one that returned early changes nothing and no effect runs.  An accepted
    [handleSquare] always changes [step], so comparing states tells the two
    cases apart. *)
Definition applyMove (s : state) (i : nat) (markOverride : option mark) : state :=
  let s' := handleSquare s i markOverride in
  if bool_decide (s' = s) then s else winnerEffect s'.

(** The condition under which the computer-move effect sets its timer. *)
Definition aiTurn (s : state) : bool :=
  bool_decide (mode s = ai) && negb (truthyLine (winLine s))
  && negb (isXNext s).

(** The timer callback, with the value [Math.random()] returns in it. *)
Definition aiMove (s : state) (r : random) : state :=
  match getRandomEmptyIndex (squares s) r with
  | None => s
  | Some index => applyMove s index (Some MarkO)
  end.

(** What can happen to a mounted component. *)
Inductive event :=
| SquareClick (i : nat)
| TimerFired (r : random)
| ResetClick
| ModeClick (modeKey : modeKey).

Definition dispatch (s : state) (e : event) : state :=
  match e with
  | SquareClick i => applyMove s i None
  | TimerFired r => if aiTurn s then aiMove s r else s
  | ResetClick => winnerEffect (handleReset s)
  | ModeClick k => winnerEffect (handleModeChange k s)
  end.

(** The state once the component is mounted and its effects have run. *)
Definition mounted : state := winnerEffect initial.

Inductive reachable : state → Prop :=
| reachable_mounted : reachable mounted
| reachable_dispatch s e : reachable s → reachable (dispatch s e).

Definition run (s : state) (es : list event) : state := foldl dispatch s es.

(** ** Counting marks *)

Definition countMark (m : mark) (squares : list cell) : nat :=
  length (filter (λ c, c = Mk m) squares).

(** ** Vocabulary of the specification *)

(** The three cells of line [l] all hold mark [m]. *)
Definition wins (squares : list cell) (l : line) (m : mark) : Prop :=
  let '(a, b, c) := l in
  get squares a = Mk m ∧ get squares b = Mk m ∧ get squares c = Mk m.

(** A fully-filled board: every cell holds a mark. *)
Definition full (squares : list cell) : Prop :=
  Forall (λ c, truthy c = true) squares.

(** Relabelling: every "X" becomes "O" and back; the rest stays. *)
Definition swapCell (c : cell) : cell :=
  match c with Mk m => Mk (otherMark m) | Null => Null | Hole => Hole end.

Definition swapBoard (squares : list cell) : list cell := swapCell <$> squares.

Definition swapWinner (w : winnerVal) : winnerVal :=
  match w with WinnerMark m => WinnerMark (otherMark m) | WinnerDraw => WinnerDraw end.

Definition swapResult (r : Result.t) : Result.t :=
  Result.make (swapWinner (Result.winner r)) (Result.winLine r).

(** ** Invariants of the component *)

(** X has as many marks as O when X is next, and one more when O is. *)
Definition alternating (s : state) : Prop :=
  countMark MarkX (squares s)
  = countMark MarkO (squares s) + (if isXNext s then 0 else 1).

(** The stored [status] and [winLine] are the ones the winner-detection
    effect computes from the stored board. *)
Definition settled (s : state) : Prop := winnerEffect s = s.

(** The call is a click of the human player while the computer is to move. *)
Definition computersSlot (s : state) (markOverride : option mark) : Prop :=
  mode s = ai ∧ isXNext s = false ∧ markOverride = None.

(** ** The rendered board *)

(** [Board] maps over [squares] and renders one [Square] per slot; [map]
    passes over holes, so a hole has no button. *)
Definition hasSquare (s : state) (i : nat) : bool :=
  match squares s !! i with
  | Some Null | Some (Mk _) => true
  | Some Hole | None => false
  end.

(** The [disabled] attribute of the button of square [i]: [Board] is given
    [disabled={Boolean(winLine)}] and [Square] adds [|| Boolean(val)]. *)
Definition squareDisabled (s : state) (i : nat) : bool :=
  truthyLine (winLine s) || truthy (get (squares s) i).

(** [isWinning={winLine && winLine.includes(i)}], as the class name of the
    square tests it. *)
Definition isWinning (s : state) (i : nat) : bool :=
  match winLine s with
  | Some l => bool_decide (i ∈ l)
  | None => false
  end.

(** What the rendered page lets happen: a click needs a button that is not
    disabled; the timer, when it fires, checks its own condition. *)
Definition offered (s : state) (e : event) : bool :=
  match e with
  | SquareClick i => hasSquare s i && negb (squareDisabled s i)
  | TimerFired _ | ResetClick | ModeClick _ => true
  end.

Inductive reachableUI : state → Prop :=
| reachableUI_mounted : reachableUI mounted
| reachableUI_dispatch s e :
    reachableUI s → offered s e = true → reachableUI (dispatch s e).

(** Every event of the list is offered in the state it meets. *)
Fixpoint allOffered (s : state) (es : list event) : bool :=
  match es with
  | [] => true
  | e :: es => offered s e && allOffered (dispatch s e) es
  end.

(** The player whose mark went on the board last, by the turn flag. *)
Definition lastMover (s : state) : mark :=
  if isXNext s then MarkO else MarkX.

(** Every line held by one mark is held by the last mover. *)
Definition ownsLines (s : state) : Prop :=
  ∀ l m, l ∈ lines → wins (squares s) l m → m = lastMover s.

(** [step] is the number of marks on the board. *)
Definition stepCounts (s : state) : Prop :=
  step s = countMark MarkX (squares s) + countMark MarkO (squares s).

(** Nine slots, none of them a hole. *)
Definition wellFormed (s : state) : Prop :=
  length (squares s) = 9 ∧ Forall (λ c, c ≠ Hole) (squares s).

(** The two ways the component calls [handleSquare]: a click passes no
    mark, the timer passes "O" and is only set when O is to move. *)
Definition ownCall (s : state) (markOverride : option mark) : Prop :=
  markOverride = None ∨ (markOverride = Some MarkO ∧ isXNext s = false).

(** ** The theme *)

(** The updater [toggleTheme] hands to [setTheme]. *)
Definition toggleTheme (t : string) : string :=
  if decide (t = "light"%string) then "dark"%string else "light"%string.

(** The [aria-label] of the theme button. *)
Definition themeLabel (theme : string) : string :=
  ("Switch to "
   +:+ (if decide (theme = "light") then "dark" else "light")
   +:+ " mode")%string.

(** The theme after [n] clicks on the theme button of a mounted component. *)
Definition themeAfter (n : nat) : string := Nat.iter n toggleTheme "light"%string.

(** ** Array lemmas *)

Section array.
Implicit Types (arr : list cell) (i j : nat) (v : cell).

Lemma get_lookup arr i c : arr !! i = Some c → get arr i = c.
Proof. unfold get. by intros ->. Qed.

Lemma get_ge arr i : length arr ≤ i → get arr i = Hole.
Proof. intros H. unfold get. by rewrite lookup_ge_None_2. Qed.

Lemma get_arraySet_eq arr i v : get (arraySet arr i v) i = v.
Proof.
  unfold get, arraySet. case_decide as Hi.
  - by rewrite list_lookup_insert_eq.
  - rewrite lookup_app_r by lia.
    rewrite lookup_app_r by (rewrite length_replicate; lia).
    rewrite length_replicate, Nat.sub_diag. done.
Qed.

Lemma get_arraySet_ne arr i j v : i ≠ j → get (arraySet arr i v) j = get arr j.
Proof.
  intros Hne. unfold get, arraySet. case_decide as Hi.
  - by rewrite list_lookup_insert_ne.
  - destruct (decide (j < length arr)) as [Hj|Hj].
    + by rewrite lookup_app_l.
    + rewrite lookup_app_r by lia.
      rewrite (lookup_ge_None_2 arr j) by lia. simpl.
      destruct (decide (j - length arr < i - length arr)) as [Hlt|Hge].
      * rewrite lookup_app_l by (rewrite length_replicate; lia).
        by rewrite lookup_replicate_2.
      * rewrite lookup_ge_None_2; [done|].
        rewrite length_app, length_replicate. simpl. lia.
Qed.

Lemma length_arraySet arr i v :
  length (arraySet arr i v) = length arr `max` S i.
Proof.
  unfold arraySet. case_decide.
  - rewrite length_insert. lia.
  - rewrite !length_app, length_replicate. simpl. lia.
Qed.

Lemma arraySet_inside arr i v :
  i < length arr → arraySet arr i v = <[i:=v]> arr.
Proof. intros H. unfold arraySet. by rewrite decide_True. Qed.

Lemma countMark_app m arr1 arr2 :
  countMark m (arr1 ++ arr2) = countMark m arr1 + countMark m arr2.
Proof. unfold countMark. by rewrite filter_app, length_app. Qed.

Lemma countMark_holes m n : countMark m (replicate n Hole) = 0.
Proof.
  unfold countMark. induction n as [|n IH]; [done|]. simpl.
  rewrite filter_cons_False by done. exact IH.
Qed.

Lemma countMark_cons m v arr :
  countMark m (v :: arr) =
  (if decide (v = Mk m) then 1 else 0) + countMark m arr.
Proof.
  unfold countMark. rewrite filter_cons. by case_decide.
Qed.

Lemma countMark_one m v :
  countMark m [v] = if decide (v = Mk m) then 1 else 0.
Proof. rewrite countMark_cons. unfold countMark. simpl. lia. Qed.

(** Writing a mark into a slot that holds none adds one to that mark's
    count and leaves the other count alone. *)
Lemma countMark_arraySet m m' arr i :
  truthy (get arr i) = false →
  countMark m (arraySet arr i (Mk m')) =
  countMark m arr + (if decide (m' = m) then 1 else 0).
Proof.
  intros Hfree. unfold arraySet. case_decide as Hi.
  - destruct (lookup_lt_is_Some_2 arr i Hi) as [c Hc].
    rewrite (get_lookup _ _ _ Hc) in Hfree.
    rewrite insert_take_drop by done.
    rewrite <- (take_drop_middle arr i c Hc) at 3.
    rewrite !countMark_app, !countMark_cons.
    repeat case_decide; simplify_eq; try done; lia.
  - rewrite !countMark_app, countMark_holes, countMark_one.
    repeat case_decide; simplify_eq; lia.
Qed.
End array.

(** ** The line scan *)

Section evaluate.
Implicit Types (squares : list cell) (l t : line) (ls : list line) (m : mark).

Lemma scanLines_cons_win squares l ls m :
  wins squares l m →
  scanLines squares (l :: ls) = Some (Result.make (WinnerMark m) (lineCells l)).
Proof.
  destruct l as [[a b] c]. intros (Ha & Hb & Hc). simpl.
  rewrite Ha, Hb, Hc. unfold strictEq.
  by rewrite bool_decide_eq_true_2.
Qed.

Lemma scanLines_cons_skip squares l ls :
  (∀ m, ¬ wins squares l m) →
  scanLines squares (l :: ls) = scanLines squares ls.
Proof.
  destruct l as [[a b] c]. intros Hno. simpl.
  destruct (get squares a) as [| |m] eqn:Ha; [done..|].
  unfold strictEq. repeat case_bool_decide; simpl; try done.
  destruct (Hno m). by repeat split.
Qed.

Lemma scanLines_first squares pre t post m :
  (∀ l m', l ∈ pre → ¬ wins squares l m') →
  wins squares t m →
  scanLines squares (pre ++ t :: post)
  = Some (Result.make (WinnerMark m) (lineCells t)).
Proof.
  intros Hpre Hwin. induction pre as [|l pre IH]; simpl app.
  - by apply scanLines_cons_win.
  - rewrite scanLines_cons_skip.
    + apply IH. intros l' m' Hin. apply Hpre. by right.
    + intros m'. apply Hpre. by left.
Qed.

Lemma scanLines_Some squares ls r :
  scanLines squares ls = Some r →
  ∃ pre t post m,
    ls = pre ++ t :: post ∧ (∀ l m', l ∈ pre → ¬ wins squares l m') ∧
    wins squares t m ∧ r = Result.make (WinnerMark m) (lineCells t).
Proof.
  induction ls as [|[[a b] c] ls IH]; [done|]. intros Hscan.
  destruct (get squares a) as [| |m] eqn:Ha.
  1,2: rewrite scanLines_cons_skip in Hscan
         by (intros m (Ha' & _); congruence);
       destruct (IH Hscan) as (pre & t & post & m & -> & Hpre & Hwin & ->);
       exists ((a, b, c) :: pre), t, post, m; repeat split; try done;
       intros l m' [->|Hin]%elem_of_cons; [intros (Ha' & _); congruence | by apply Hpre].
  destruct (decide (get squares b = Mk m ∧ get squares c = Mk m)) as [[Hb Hc]|Hno].
  - rewrite (scanLines_cons_win squares (a, b, c) ls m) in Hscan by done.
    exists [], (a, b, c), ls, m. repeat split; try done; [|congruence].
    intros l m' Hin. by apply elem_of_nil in Hin.
  - assert (∀ m', ¬ wins squares (a, b, c) m') as Hskip.
    { intros m' (Ha' & Hb' & Hc'). apply Hno. split; congruence. }
    rewrite scanLines_cons_skip in Hscan by done.
    destruct (IH Hscan) as (pre & t & post & m0 & -> & Hpre & Hwin & ->).
    exists ((a, b, c) :: pre), t, post, m0. repeat split; try done.
    intros l m' [->|Hin]%elem_of_cons; [apply Hskip | by apply Hpre].
Qed.

Lemma scanLines_None squares ls :
  scanLines squares ls = None ↔ ∀ l m, l ∈ ls → ¬ wins squares l m.
Proof.
  split.
  - induction ls as [|l ls IH]; intros Hscan l' m Hin Hwin.
    + by apply elem_of_nil in Hin.
    + apply elem_of_cons in Hin as [->|Hin].
      * by rewrite (scanLines_cons_win _ _ _ _ Hwin) in Hscan.
      * destruct (scanLines squares (l :: ls)) eqn:E; [done|].
        destruct l as [[a b] c]. simpl in E.
        destruct (get squares a); try by eapply IH.
        destruct (_ && _); [done|]. by eapply IH.
  - induction ls as [|l ls IH]; intros Hno; [done|].
    rewrite scanLines_cons_skip.
    + apply IH. intros l' m Hin. apply Hno. by right.
    + intros m. apply Hno. by left.
Qed.

Lemma includesNull_spec squares : includesNull squares = true ↔ Null ∈ squares.
Proof.
  unfold includesNull. rewrite existsb_exists. split.
  - intros (c & Hin & Hc). apply bool_decide_eq_true in Hc as ->.
    by apply list_elem_of_In.
  - intros Hin. exists Null. split; [by apply list_elem_of_In|].
    by apply bool_decide_eq_true.
Qed.

Lemma full_no_null squares : full squares → includesNull squares = false.
Proof.
  intros Hfull. apply not_true_is_false. rewrite includesNull_spec.
  intros Hin. unfold full in Hfull. rewrite Forall_forall in Hfull.
  by apply Hfull in Hin.
Qed.

Lemma get_swapBoard squares i :
  get (swapBoard squares) i = swapCell (get squares i).
Proof.
  unfold get, swapBoard. rewrite list_lookup_fmap.
  by destruct (squares !! i).
Qed.

Lemma swapCell_inj c d : swapCell c = swapCell d → c = d.
Proof. by destruct c as [| |[]], d as [| |[]]. Qed.

Lemma strictEq_swap c d : strictEq (swapCell c) (swapCell d) = strictEq c d.
Proof.
  unfold strictEq. apply bool_decide_ext. split; [apply swapCell_inj | by intros ->].
Qed.

Lemma scanLines_swap squares ls :
  scanLines (swapBoard squares) ls = swapResult <$> scanLines squares ls.
Proof.
  induction ls as [|[[a b] c] ls IH]; [done|]. simpl.
  rewrite !get_swapBoard, !strictEq_swap.
  destruct (get squares a) as [| |m]; simpl; try done.
  by destruct (_ && _).
Qed.

Lemma includesNull_swap squares :
  includesNull (swapBoard squares) = includesNull squares.
Proof.
  unfold includesNull, swapBoard. induction squares as [|c sq IH]; [done|].
  rewrite fmap_cons. simpl. rewrite IH. f_equal. by destruct c.
Qed.

Lemma calculateWinner_swap squares :
  calculateWinner (swapBoard squares) = swapResult <$> calculateWinner squares.
Proof.
  unfold calculateWinner. rewrite scanLines_swap, includesNull_swap.
  destruct (scanLines squares lines); simpl; [done|].
  by destruct (includesNull squares).
Qed.

Lemma swapBoard_involutive squares : swapBoard (swapBoard squares) = squares.
Proof.
  unfold swapBoard. rewrite <- list_fmap_compose. rewrite <- (list_fmap_id squares) at 2.
  apply list_fmap_ext. intros _ c _. by destruct c as [| |[]].
Qed.
End evaluate.

(** ** Claims about calculateWinner *)

(** C1. [calculateWinner] goes through the eight lines in the order
    [0,1,2], [3,4,5], [6,7,8], [0,3,6], [1,4,7], [2,5,8], [0,4,8], [2,4,6]
    and answers with the first of them whose three cells hold one and the
    same mark [m]: it returns that mark as winner and that line as win line.
    Conversely a winner it reports comes with the first such line.  The
    board X,X,X followed by six empty cells gives winner X on line 0,1,2.
    (Nothing here depends on the board having nine cells.) *)
Theorem calculateWinner_first_line :
  lineCells <$> lines =
    [[0;1;2]; [3;4;5]; [6;7;8]; [0;3;6]; [1;4;7]; [2;5;8]; [0;4;8]; [2;4;6]] ∧
  (∀ squares pre t post m,
     lines = pre ++ t :: post →
     (∀ l m', l ∈ pre → ¬ wins squares l m') →
     wins squares t m →
     calculateWinner squares
     = Some (Result.make (WinnerMark m) (lineCells t))) ∧
  (∀ squares m cells,
     calculateWinner squares = Some (Result.make (WinnerMark m) cells) →
     ∃ pre t post,
       lines = pre ++ t :: post ∧
       (∀ l m', l ∈ pre → ¬ wins squares l m') ∧
       wins squares t m ∧ cells = lineCells t) ∧
  calculateWinner
    [Mk MarkX; Mk MarkX; Mk MarkX; Null; Null; Null; Null; Null; Null]
  = Some (Result.make (WinnerMark MarkX) [0; 1; 2]).
Proof.
  split; [reflexivity|]. split; [|split; [|reflexivity]].
  - intros squares pre t post m Hsplit Hpre Hwin. unfold calculateWinner.
    rewrite Hsplit. by rewrite (scanLines_first _ _ _ _ m).
  - intros squares m cells. unfold calculateWinner.
    destruct (scanLines squares lines) as [r|] eqn:Hscan.
    + intros [= ->].
      destruct (scanLines_Some _ _ _ Hscan)
        as (pre & t & post & m' & Hsplit & Hpre & Hwin & [= -> ->]).
      by exists pre, t, post.
    + by destruct (negb _).
Qed.

Lemma calculateWinner_first_line_witness :
  calculateWinner
    [Mk MarkO; Mk MarkO; Null; Mk MarkX; Mk MarkX; Mk MarkX; Null; Null; Null]
  = Some (Result.make (WinnerMark MarkX) [3; 4; 5]).
Proof.
  apply (proj1 (proj2 calculateWinner_first_line) _
           [(0, 1, 2)] (3, 4, 5)
           [(6,7,8); (0,3,6); (1,4,7); (2,5,8); (0,4,8); (2,4,6)] MarkX).
  - reflexivity.
  - intros l m' Hin. apply list_elem_of_singleton in Hin. subst l.
    intros (_ & _ & Hc). vm_compute in Hc. discriminate Hc.
  - vm_compute. repeat split.
Defined.

(** C5. On a board all of whose cells hold a mark: if some line is held by
    one mark, [calculateWinner] reports a winner with such a line (and so
    not a draw); if no line is, it reports the draw.  The line scan comes
    before the [includes(null)] test. *)
Theorem calculateWinner_full squares :
  full squares →
  ((∃ l m, l ∈ lines ∧ wins squares l m) →
   ∃ t m, t ∈ lines ∧ wins squares t m ∧
          calculateWinner squares
          = Some (Result.make (WinnerMark m) (lineCells t))) ∧
  ((∀ l m, l ∈ lines → ¬ wins squares l m) →
   calculateWinner squares = Some (Result.make WinnerDraw [])).
Proof.
  intros Hfull. unfold calculateWinner. split.
  - intros (l & m & Hin & Hwin).
    destruct (scanLines squares lines) as [r|] eqn:Hscan.
    + destruct (scanLines_Some _ _ _ Hscan)
        as (pre & t & post & m' & Hsplit & _ & Hwin' & ->).
      exists t, m'. repeat split; [|done].
      rewrite Hsplit. apply elem_of_app. right. by left.
    + rewrite scanLines_None in Hscan. by destruct (Hscan l m).
  - intros Hno. apply scanLines_None in Hno. rewrite Hno.
    by rewrite full_no_null.
Qed.

Lemma calculateWinner_full_witness :
  calculateWinner
    [Mk MarkX; Mk MarkO; Mk MarkX; Mk MarkO; Mk MarkX; Mk MarkO;
     Mk MarkO; Mk MarkX; Mk MarkO]
  = Some (Result.make WinnerDraw []).
Proof.
  apply calculateWinner_full.
  - unfold full. repeat constructor.
  - intros l m Hin.
    repeat (apply elem_of_cons in Hin as [->|Hin]);
      try (by apply elem_of_nil in Hin);
      intros (Ha & Hb & Hc); vm_compute in Ha, Hb, Hc;
      destruct m; discriminate.
Defined.

(** C8. Relabelling a board (every X becomes O and every O becomes X, the
    other cells stay) leaves in-progress boards in progress and drawn
    boards drawn, and turns a win of [m] on a line into a win of the other
    mark on the same line. *)
Theorem calculateWinner_swap_symmetric squares :
  (calculateWinner squares = None ↔
   calculateWinner (swapBoard squares) = None) ∧
  (calculateWinner squares = Some (Result.make WinnerDraw []) ↔
   calculateWinner (swapBoard squares) = Some (Result.make WinnerDraw [])) ∧
  (∀ m t,
     calculateWinner squares = Some (Result.make (WinnerMark m) t) ↔
     calculateWinner (swapBoard squares)
     = Some (Result.make (WinnerMark (otherMark m)) t)).
Proof.
  rewrite calculateWinner_swap.
  destruct (calculateWinner squares) as [[w t]|]; simpl; unfold swapResult; simpl.
  - split; [done|]. split.
    + split; intros [= Hw Ht]; subst; [done|]. by destruct w.
    + intros m t'. split; intros [= Hw Ht]; subst; [done|].
      destruct w as [[]|], m; simplify_eq/=; done.
  - repeat split; done.
Qed.

(** ** The handlers *)

Section component.
Implicit Types (s : state) (i : nat) (mo : option mark) (m : mark).

Lemma winnerEffect_idem s : winnerEffect (winnerEffect s) = winnerEffect s.
Proof. reflexivity. Qed.

Lemma handleReset_settled s : winnerEffect (handleReset s) = handleReset s.
Proof. reflexivity. Qed.

(** The three ways [handleSquare] returns early. *)
Lemma handleSquare_gameOver s i mo : winLine s ≠ None → handleSquare s i mo = s.
Proof. unfold handleSquare. by destruct (winLine s). Qed.

Lemma handleSquare_occupied s i mo m :
  get (squares s) i = Mk m → handleSquare s i mo = s.
Proof.
  intros Hc. unfold handleSquare. rewrite Hc. simpl.
  by rewrite orb_true_r.
Qed.

Lemma handleSquare_computersSlot s i mo :
  computersSlot s mo → handleSquare s i mo = s.
Proof.
  intros (Hmode & Hturn & ->). unfold handleSquare.
  destruct (_ || _); [done|].
  by rewrite Hturn, bool_decide_eq_true_2.
Qed.

(** Otherwise all three setters are called. *)
Lemma handleSquare_accept s i mo :
  winLine s = None →
  truthy (get (squares s) i) = false →
  ¬ computersSlot s mo →
  handleSquare s i mo =
  {| mode := mode s;
     squares := arraySet (squares s) i (Mk (markFor s mo));
     step := step s + 1; isXNext := negb (isXNext s);
     status := status s; winLine := winLine s |}.
Proof.
  intros Hw Hfree Hslot. unfold handleSquare. rewrite Hw, Hfree. simpl.
  destruct (bool_decide (mode s = ai) && negb (isXNext s)
            && negb (bool_decide (is_Some mo))) eqn:Hguard; [|done].
  destruct Hslot.
  apply andb_true_iff in Hguard as [Hguard Hmo].
  apply andb_true_iff in Hguard as [Hmode Hturn].
  apply bool_decide_eq_true in Hmode.
  apply negb_true_iff in Hturn.
  apply negb_true_iff, bool_decide_eq_false in Hmo.
  repeat split; [done..|]. destruct mo; [|done]. by destruct Hmo.
Qed.

Lemma handleSquare_cases s i mo :
  handleSquare s i mo = s ∨
  (winLine s = None ∧ truthy (get (squares s) i) = false ∧
   ¬ computersSlot s mo).
Proof.
  destruct (winLine s) as [w|] eqn:Hw.
  { left. apply handleSquare_gameOver. by rewrite Hw. }
  destruct (get (squares s) i) as [| |m] eqn:Hc.
  3: { left. by eapply handleSquare_occupied. }
  all: destruct (decide (mode s = ai ∧ isXNext s = false ∧ mo = None))
         as [Hslot|Hslot];
       [left; by apply handleSquare_computersSlot | right; done].
Qed.

Lemma handleSquare_accept_ne s i mo :
  winLine s = None →
  truthy (get (squares s) i) = false →
  ¬ computersSlot s mo →
  handleSquare s i mo ≠ s.
Proof.
  intros Hw Hfree Hslot Heq. rewrite handleSquare_accept in Heq by done.
  apply (f_equal step) in Heq. simpl in Heq. lia.
Qed.

Lemma applyMove_reject s i mo : handleSquare s i mo = s → applyMove s i mo = s.
Proof. intros H. unfold applyMove. by rewrite H, bool_decide_eq_true_2. Qed.

Lemma applyMove_accept s i mo :
  winLine s = None →
  truthy (get (squares s) i) = false →
  ¬ computersSlot s mo →
  applyMove s i mo = winnerEffect (handleSquare s i mo).
Proof.
  intros Hw Hfree Hslot. unfold applyMove.
  rewrite bool_decide_eq_false_2; [done|]. by apply handleSquare_accept_ne.
Qed.

Lemma applyMove_cases s i mo :
  applyMove s i mo = s ∨ applyMove s i mo = winnerEffect (handleSquare s i mo).
Proof. unfold applyMove. case_bool_decide; [by left | by right]. Qed.

(** *** Every reachable state is settled *)

Lemma applyMove_settled s i mo : settled s → settled (applyMove s i mo).
Proof.
  intros Hs. destruct (applyMove_cases s i mo) as [->| ->]; [done|].
  apply winnerEffect_idem.
Qed.

Lemma dispatch_settled s e : settled s → settled (dispatch s e).
Proof.
  intros Hs. destruct e as [i|r| |k]; simpl.
  - by apply applyMove_settled.
  - destruct (aiTurn s); [|done]. unfold aiMove.
    destruct (getRandomEmptyIndex _ _); [|done]. by apply applyMove_settled.
  - apply winnerEffect_idem.
  - apply winnerEffect_idem.
Qed.

Lemma reachable_settled s : reachable s → settled s.
Proof.
  induction 1 as [|s e _ IH]; [reflexivity|]. by apply dispatch_settled.
Qed.

Lemma settled_winLine s :
  settled s → winLine s = Result.winLine <$> calculateWinner (squares s).
Proof. unfold settled. intros Hs. by rewrite <- Hs at 1. Qed.

Lemma reachable_run s es : reachable s → reachable (run s es).
Proof.
  revert s. induction es as [|e es IH]; intros s Hs; [done|].
  simpl. apply IH. by constructor.
Qed.

(** *** Marks alternate *)

Lemma handleSquare_alternating s i mo :
  alternating s →
  mo = None ∨ (mo = Some MarkO ∧ isXNext s = false) →
  alternating (handleSquare s i mo).
Proof.
  intros Halt Hmo.
  destruct (handleSquare_cases s i mo) as [->|(Hw & Hfree & Hslot)]; [done|].
  rewrite handleSquare_accept by done. unfold alternating in *. simpl.
  rewrite !countMark_arraySet by done. rewrite Halt.
  destruct Hmo as [->|[-> Hturn]]; simpl.
  - destruct (isXNext s); simpl; repeat case_decide; simplify_eq; lia.
  - rewrite Hturn. simpl. repeat case_decide; simplify_eq; lia.
Qed.

Lemma applyMove_alternating s i mo :
  alternating s →
  mo = None ∨ (mo = Some MarkO ∧ isXNext s = false) →
  alternating (applyMove s i mo).
Proof.
  intros Halt Hmo. destruct (applyMove_cases s i mo) as [->| ->]; [done|].
  by apply (handleSquare_alternating s i mo).
Qed.

Lemma dispatch_alternating s e : alternating s → alternating (dispatch s e).
Proof.
  intros Halt. destruct e as [i|r| |k]; simpl.
  - apply applyMove_alternating; auto.
  - destruct (aiTurn s) eqn:Hturn; [|done]. unfold aiMove.
    destruct (getRandomEmptyIndex _ _); [|done].
    apply applyMove_alternating; [done|]. right. split; [done|].
    unfold aiTurn in Hturn. apply andb_true_iff in Hturn as [_ Hturn].
    by apply negb_true_iff.
  - reflexivity.
  - reflexivity.
Qed.

Lemma reachable_alternating s : reachable s → alternating s.
Proof.
  induction 1 as [|s e _ IH]; [reflexivity|]. by apply dispatch_alternating.
Qed.
End component.

(** ** Claims about the handlers *)

(** C2. [handleSquare] changes nothing, and so does the whole move
    [applyMove], whenever the game is over (the stored [winLine] is not
    [null]; on a reachable state that is the case exactly when
    [calculateWinner] of the stored board is not [null]), or the target cell
    holds a mark, or the mode is "ai", O is to move and no mark is passed.
    The result is the very state it was given: no field differs and nothing
    is signalled. *)
Theorem handleSquare_rejected s i mo :
  winLine s ≠ None ∨
  (reachable s ∧ calculateWinner (squares s) ≠ None) ∨
  (∃ m, get (squares s) i = Mk m) ∨
  computersSlot s mo →
  handleSquare s i mo = s ∧ applyMove s i mo = s.
Proof.
  intros Hrej.
  assert (handleSquare s i mo = s) as Hsame;
    [|split; [done | by apply applyMove_reject]].
  destruct Hrej as [Hw|[[Hreach Hres]|[[m Hc]|Hslot]]].
  - by apply handleSquare_gameOver.
  - apply handleSquare_gameOver.
    rewrite (settled_winLine s (reachable_settled s Hreach)).
    by destruct (calculateWinner (squares s)).
  - by eapply handleSquare_occupied.
  - by apply handleSquare_computersSlot.
Qed.

Lemma handleSquare_rejected_witness :
  let s := run mounted [ModeClick ai; SquareClick 0] in
  handleSquare s 3 None = s ∧ applyMove s 3 None = s.
Proof.
  apply handleSquare_rejected. right. right. right.
  vm_compute. repeat split.
Defined.

(** C3. In every state the component can reach from its mounted state by
    clicks on squares, firings of the computer's timer, the reset button and
    the mode buttons, the number of X minus the number of O is 0 or 1: it is
    0 when X is next and 1 when O is. *)
Theorem reachable_mark_counts s :
  reachable s →
  let d := (Z.of_nat (countMark MarkX (squares s))
            - Z.of_nat (countMark MarkO (squares s)))%Z in
  (d = 0 ∨ d = 1)%Z ∧ d = (if isXNext s then 0 else 1)%Z.
Proof.
  intros Hreach%reachable_alternating. unfold alternating in Hreach.
  simpl. rewrite Hreach. destruct (isXNext s); lia.
Qed.

Lemma reachable_mark_counts_witness :
  let s := run mounted [ModeClick ai; SquareClick 4;
                        TimerFired {| rnum := 1; rgap := 2 |}; SquareClick 0] in
  (Z.of_nat (countMark MarkX (squares s))
   - Z.of_nat (countMark MarkO (squares s)) = 1)%Z.
Proof.
  intros s.
  destruct (reachable_mark_counts s) as [_ Hd].
  - apply reachable_run, reachable_mounted.
  - exact Hd.
Defined.

(** C4. When none of the three rejections applies and the index is inside
    the board, the move writes a mark into the chosen cell: the mark that
    was passed, else "X" when X is to move and "O" when O is.  It leaves
    every other cell as it was, flips [isXNext], and stores the status and
    win line that [calculateWinner] gives for the new board; the mode
    stays.  On the mounted component, whose board is empty, the move to
    cell 4 puts "X" there, makes O the next to move and leaves the game in
    progress. *)
Theorem applyMove_accepted :
  (∀ s i mo,
     winLine s = None →
     truthy (get (squares s) i) = false →
     ¬ computersSlot s mo →
     i < length (squares s) →
     let placed :=
       match mo with
       | Some m => m
       | None => if isXNext s then MarkX else MarkO
       end in
     let s' := applyMove s i mo in
     squares s' = <[i := Mk placed]> (squares s) ∧
     get (squares s') i = Mk placed ∧
     (∀ j, j ≠ i → get (squares s') j = get (squares s) j) ∧
     length (squares s') = length (squares s) ∧
     isXNext s' = negb (isXNext s) ∧
     winLine s' = Result.winLine <$> calculateWinner (squares s') ∧
     status s' = statusOf (calculateWinner (squares s')) (isXNext s') ∧
     mode s' = mode s) ∧
  (let s' := applyMove mounted 4 None in
   squares mounted = replicate 9 Null ∧
   squares s' = [Null; Null; Null; Null; Mk MarkX; Null; Null; Null; Null] ∧
   isXNext mounted = true ∧ isXNext s' = false ∧
   calculateWinner (squares s') = None ∧ winLine s' = None ∧
   status s' = "Current: O"%string).
Proof.
  split; [|by vm_compute].
  intros s i mo Hw Hfree Hslot Hi placed s'. unfold s', placed.
  rewrite applyMove_accept, handleSquare_accept by done. simpl.
  unfold markFor. repeat split.
  - by apply arraySet_inside.
  - apply get_arraySet_eq.
  - intros j Hj. by apply get_arraySet_ne.
  - rewrite length_arraySet. lia.
Qed.

Lemma applyMove_accepted_witness :
  let s := run mounted [SquareClick 0] in
  let s' := applyMove s 4 None in
  squares s' = [Mk MarkX; Null; Null; Null; Mk MarkO; Null; Null; Null; Null] ∧
  get (squares s') 4 = Mk MarkO ∧ isXNext s' = true ∧
  status s' = "Current: X"%string.
Proof.
  intros s s'.
  destruct (proj1 applyMove_accepted s 4 None)
    as (Hsq & Hcell & _ & _ & Hnext & _ & Hstatus & _).
  - reflexivity.
  - reflexivity.
  - intros (Hmode & _). vm_compute in Hmode. discriminate Hmode.
  - vm_compute. lia.
  - split; [exact Hsq|]. split; [exact Hcell|].
    split; [exact Hnext | exact Hstatus].
Defined.

(** C7. [handleReset] gives nine empty cells with X to move, no win line and
    the mode it found; [handleModeChange] is [handleReset] after the mode
    has been set, so its result is the fresh game of the new mode whatever
    the state before was.  The winner-detection effect that runs afterwards
    changes nothing more. *)
Theorem handleReset_handleModeChange s k :
  handleReset s =
    {| mode := mode s; squares := replicate 9 Null; step := 0;
       isXNext := true; status := "Current: X"%string; winLine := None |} ∧
  handleModeChange k s = handleReset (setMode k s) ∧
  handleModeChange k s =
    {| mode := k; squares := replicate 9 Null; step := 0;
       isXNext := true; status := "Current: X"%string; winLine := None |} ∧
  (∀ s0, handleModeChange k s0 = handleModeChange k s) ∧
  calculateWinner (squares (handleModeChange k s)) = None ∧
  dispatch s ResetClick = handleReset s ∧
  dispatch s (ModeClick k) = handleModeChange k s.
Proof. repeat split. Qed.

(** C9. A mark passed to [handleSquare] is not compared with the player to
    move nor with the mode: when the game is not over and the target cell
    holds no mark, the call writes the mark it was given and flips the turn.
    One such call on the mounted state, with "O", leaves a board with one O
    and no X. *)
Theorem handleSquare_explicit_mark :
  (∀ s i m,
     winLine s = None →
     truthy (get (squares s) i) = false →
     handleSquare s i (Some m) =
       {| mode := mode s; squares := arraySet (squares s) i (Mk m);
          step := step s + 1; isXNext := negb (isXNext s);
          status := status s; winLine := winLine s |} ∧
     get (squares (handleSquare s i (Some m))) i = Mk m ∧
     get (squares (applyMove s i (Some m))) i = Mk m) ∧
  (let s' := applyMove mounted 0 (Some MarkO) in
   squares s' = squares (handleSquare mounted 0 (Some MarkO)) ∧
   countMark MarkO (squares s') = 1 ∧ countMark MarkX (squares s') = 0).
Proof.
  split; [|by vm_compute].
  intros s i m Hw Hfree.
  assert (¬ computersSlot s (Some m)) as Hslot by (by intros (_ & _ & ?)).
  rewrite applyMove_accept, handleSquare_accept by done. simpl.
  repeat split; apply get_arraySet_eq.
Qed.

Lemma handleSquare_explicit_mark_witness :
  let s := run mounted [SquareClick 4] in
  get (squares (handleSquare s 0 (Some MarkX))) 0 = Mk MarkX.
Proof.
  intros s.
  apply (proj1 handleSquare_explicit_mark s 0 MarkX); reflexivity.
Defined.

(** C10, as the code has it.  On a nine-cell board with the game not over,
    a call with an array index of 9 or more (so below [2^32 - 1]) is
    accepted unless it is a click in the computer's slot (mode "ai", O to
    move, no mark passed): the index reads as [undefined], the mark (the
    one passed, else "X" when X is to move and "O" when O is) is written
    there, the array grows to [i + 1] slots with holes in between, and the
    turn flips. *)
Theorem handleSquare_out_of_range s i mo :
  winLine s = None →
  length (squares s) = 9 →
  9 ≤ i →
  arrayIndex i →
  ¬ computersSlot s mo →
  let placed :=
    match mo with
    | Some m => m
    | None => if isXNext s then MarkX else MarkO
    end in
  let s' := handleSquare s i mo in
  get (squares s) i = Hole ∧
  s' ≠ s ∧
  squares s' = squares s ++ replicate (i - 9) Hole ++ [Mk placed] ∧
  get (squares s') i = Mk placed ∧
  length (squares s') = S i ∧
  isXNext s' = negb (isXNext s) ∧
  applyMove s i mo = winnerEffect s'.
Proof.
  intros Hw Hlen Hi _ Hslot placed s'.
  assert (get (squares s) i = Hole) as Hhole by (apply get_ge; lia).
  assert (truthy (get (squares s) i) = false) as Hfree by (by rewrite Hhole).
  split; [done|]. split; [by apply handleSquare_accept_ne|].
  unfold s', placed.
  rewrite applyMove_accept, handleSquare_accept by done. simpl.
  unfold markFor. repeat split.
  - unfold arraySet. rewrite decide_False by lia. by rewrite Hlen.
  - apply get_arraySet_eq.
  - rewrite length_arraySet. lia.
Qed.

Lemma handleSquare_out_of_range_witness :
  let s := run mounted [SquareClick 0] in
  let s' := handleSquare s 11 None in
  squares s' =
    [Mk MarkX; Null; Null; Null; Null; Null; Null; Null; Null;
     Hole; Hole; Mk MarkO] ∧
  length (squares s') = 12 ∧ isXNext s' = true.
Proof.
  intros s s'.
  destruct (handleSquare_out_of_range s 11 None)
    as (_ & _ & Hsq & _ & Hlen & Hnext & _).
  - reflexivity.
  - reflexivity.
  - lia.
  - unfold arrayIndex. lia.
  - intros (Hmode & _). vm_compute in Hmode. discriminate Hmode.
  - split; [exact Hsq|]. split; [exact Hlen | exact Hnext].
Defined.

(** C10, as the claim words it, fails: after the human's first move in mode
    "ai" the game is in progress on nine cells, and a call with index 9 and
    no mark is turned down like any other click in the computer's slot. *)
Lemma handleSquare_out_of_range_counterexample :
  let s := run mounted [ModeClick ai; SquareClick 0] in
  (reachable s ∧ winLine s = None ∧ calculateWinner (squares s) = None ∧
   length (squares s) = 9 ∧
   handleSquare s 9 None = s ∧ applyMove s 9 None = s) ∧
  ¬ (∀ s i mo,
       winLine s = None → length (squares s) = 9 → 9 ≤ i →
       get (squares (handleSquare s i mo)) i = Mk (markFor s mo) ∧
       isXNext (handleSquare s i mo) = negb (isXNext s)).
Proof.
  intros s. split; [split; [|by vm_compute]|].
  - apply reachable_run, reachable_mounted.
  - intros Hall. destruct (Hall s 9 None) as [Hcell _]; [done|done|lia|].
    vm_compute in Hcell. discriminate Hcell.
Qed.

(** ** The computer's choice *)

Section selector.
Implicit Types (squares : list cell) (i j : nat) (r : random).

Lemma elem_of_empties squares i :
  i ∈ empties squares ↔ squares !! i = Some Null.
Proof.
  unfold empties. rewrite list_elem_of_omap. split.
  - intros (x & Hx & Hkeep).
    apply elem_of_lookup_imap in Hx as (j & c & -> & Hj).
    destruct c; simplify_eq/=. done.
  - intros Hi. exists (MIndex i). split; [|done].
    apply elem_of_lookup_imap. by exists i, Null.
Qed.

Lemma empties_nil squares : empties squares = [] ↔ Null ∉ squares.
Proof.
  split.
  - intros Hnil [i Hi]%list_elem_of_lookup.
    apply elem_of_empties in Hi. rewrite Hnil in Hi.
    by apply elem_of_nil in Hi.
  - intros Hno. apply elem_of_nil_inv. intros i Hi%elem_of_empties.
    apply Hno. apply list_elem_of_lookup. by exists i.
Qed.

Lemma omap_imap_shift squares (h : nat → nat) :
  ∀ f g : nat → cell → mapped,
    (∀ i c, keepIndex (g i c) = h <$> keepIndex (f i c)) →
    omap keepIndex (imap g squares) = h <$> omap keepIndex (imap f squares).
Proof.
  induction squares as [|c squares IH]; intros f g Hfg; [done|].
  specialize (IH (f ∘ S) (g ∘ S) (λ i c, Hfg (S i) c)).
  rewrite !imap_cons. simpl. rewrite (Hfg 0 c).
  destruct (keepIndex (f 0 c)); simpl; [f_equal|]; exact IH.
Qed.

Lemma empties_cons c squares :
  empties (c :: squares) =
  (if decide (c = Null) then [0] else []) ++ (S <$> empties squares).
Proof.
  unfold empties. rewrite imap_cons.
  pose proof (omap_imap_shift squares S emptyOrNull (emptyOrNull ∘ S))
    as Hshift.
  rewrite <- Hshift by (by intros i []).
  by destruct c.
Qed.

(** A single empty cell is the whole list of candidates. *)
Lemma empties_unique squares i :
  squares !! i = Some Null →
  (∀ j, squares !! j = Some Null → j = i) →
  empties squares = [i].
Proof.
  revert i. induction squares as [|c squares IH]; intros i Hi Huniq; [done|].
  rewrite empties_cons. destruct i as [|i]; simpl in Hi.
  - injection Hi as ->. rewrite decide_True by done.
    replace (empties squares) with (@nil nat); [done|].
    symmetry. apply elem_of_nil_inv. intros j Hj%elem_of_empties.
    by specialize (Huniq (S j) Hj).
  - rewrite decide_False.
    + rewrite (IH i); [done..|].
      intros j Hj. specialize (Huniq (S j) Hj). lia.
    + intros ->. by specialize (Huniq 0 eq_refl).
Qed.

(** [Math.floor(Math.random() * n)] is an index below [n]. *)
Lemma floorTimes_lt r n : 0 < n → floorTimes r n < n.
Proof.
  intros Hn. unfold floorTimes.
  apply Nat.Div0.div_lt_upper_bound. nia.
Qed.

Lemma getRandomEmptyIndex_Some squares r i :
  getRandomEmptyIndex squares r = Some i → squares !! i = Some Null.
Proof.
  unfold getRandomEmptyIndex. case_decide; [done|]. intros Hi.
  apply elem_of_empties. by eapply list_elem_of_lookup_2.
Qed.

Lemma getRandomEmptyIndex_None squares r :
  getRandomEmptyIndex squares r = None ↔ Null ∉ squares.
Proof.
  rewrite <- empties_nil. unfold getRandomEmptyIndex.
  case_decide as Hlen.
  - split; [|done]. intros _. by apply nil_length_inv.
  - split.
    + intros Hnone%lookup_ge_None.
      pose proof (floorTimes_lt r (length (empties squares))). lia.
    + intros Hnil. by rewrite Hnil in Hlen.
Qed.
End selector.

(** C6. On a nine-cell board [getRandomEmptyIndex] returns [null] exactly
    when no cell is [null], whatever [Math.random()] gives; an index it
    returns is at most 8 and the cell there is [null]; and when the board
    has a single [null] cell the result is that cell's index for every
    value of [Math.random()].  (On a board of the data model, which has no
    holes, the [null] cells are the empty ones.) *)
Theorem getRandomEmptyIndex_spec squares :
  length squares = 9 →
  (∀ r, getRandomEmptyIndex squares r = None ↔ Null ∉ squares) ∧
  (∀ r i, getRandomEmptyIndex squares r = Some i →
          i ≤ 8 ∧ squares !! i = Some Null ∧ get squares i = Null) ∧
  (∀ i, squares !! i = Some Null →
        (∀ j, squares !! j = Some Null → j = i) →
        ∀ r, getRandomEmptyIndex squares r = Some i).
Proof.
  intros Hlen. split; [|split].
  - intros r. apply getRandomEmptyIndex_None.
  - intros r i Hi%getRandomEmptyIndex_Some.
    pose proof (lookup_lt_Some _ _ _ Hi).
    split; [lia|]. split; [done | by apply get_lookup].
  - intros i Hi Huniq r. unfold getRandomEmptyIndex.
    rewrite (empties_unique squares i) by done. simpl.
    unfold floorTimes. rewrite Nat.div_small by lia. done.
Qed.

Lemma getRandomEmptyIndex_spec_witness :
  getRandomEmptyIndex
    [Mk MarkX; Mk MarkO; Mk MarkX; Mk MarkO; Mk MarkX; Null;
     Mk MarkO; Mk MarkX; Mk MarkO] {| rnum := 999; rgap := 0 |} = Some 5.
Proof.
  apply getRandomEmptyIndex_spec.
  - reflexivity.
  - reflexivity.
  - intros j Hj.
    do 9 (destruct j as [|j]; [first [reflexivity | discriminate Hj]|]).
    discriminate Hj.
Defined.

(** ** More on calculateWinner *)

Section outcome.
Implicit Types (squares : list cell) (l t : line) (m : mark).

Lemma calculateWinner_None squares :
  calculateWinner squares = None ↔
  (∀ l m, l ∈ lines → ¬ wins squares l m) ∧ Null ∈ squares.
Proof.
  unfold calculateWinner. rewrite <- scanLines_None, <- includesNull_spec.
  destruct (scanLines squares lines) as [r|]; [by split; [|intros []]|].
  destruct (includesNull squares); simpl; split; try done.
  by intros [_ ?].
Qed.

Lemma calculateWinner_Draw squares cells :
  calculateWinner squares = Some (Result.make WinnerDraw cells) ↔
  cells = [] ∧ (∀ l m, l ∈ lines → ¬ wins squares l m) ∧ Null ∉ squares.
Proof.
  unfold calculateWinner. rewrite <- scanLines_None.
  destruct (scanLines squares lines) as [r|] eqn:Hscan.
  - split; [|by intros (_ & ? & _)]. intros [= ->].
    by destruct (scanLines_Some _ _ _ Hscan) as (? & ? & ? & ? & _ & _ & _ & ?).
  - destruct (includesNull squares) eqn:Hnull; simpl.
    + split; [done|]. intros (_ & _ & Hno). destruct Hno.
      by apply includesNull_spec.
    + split.
      * intros [= <-]. repeat split. rewrite <- includesNull_spec.
        by rewrite Hnull.
      * by intros (-> & _).
Qed.

(** A reported winner holds the reported line, which is one of the eight. *)
Lemma calculateWinner_Win squares m cells :
  calculateWinner squares = Some (Result.make (WinnerMark m) cells) →
  ∃ t, t ∈ lines ∧ wins squares t m ∧ cells = lineCells t.
Proof.
  unfold calculateWinner.
  destruct (scanLines squares lines) as [r|] eqn:Hscan.
  - intros [= ->].
    destruct (scanLines_Some _ _ _ Hscan)
      as (pre & t & post & m' & Hsplit & _ & Hwin & [= -> ->]).
    exists t. repeat split; [|done].
    rewrite Hsplit. apply elem_of_app. right. by left.
  - by destruct (negb _).
Qed.

Lemma wins_cells squares t m i :
  wins squares t m → i ∈ lineCells t → get squares i = Mk m.
Proof.
  destruct t as [[a b] c]. intros (Ha & Hb & Hc) Hi. simpl in Hi.
  repeat (apply elem_of_cons in Hi as [->|Hi]); try done.
  by apply elem_of_nil in Hi.
Qed.
End outcome.

(** X1. [calculateWinner] returns [null] exactly when no line is held by one
    mark and some cell is [null]; it returns the draw (with an empty win
    line) exactly when no line is held and no cell is [null]. *)
Theorem calculateWinner_outcomes squares :
  (calculateWinner squares = None ↔
   (∀ l m, l ∈ lines → ¬ wins squares l m) ∧ Null ∈ squares) ∧
  (∀ cells,
     calculateWinner squares = Some (Result.make WinnerDraw cells) ↔
     cells = [] ∧ (∀ l m, l ∈ lines → ¬ wins squares l m) ∧
     Null ∉ squares).
Proof.
  split; [apply calculateWinner_None | intros; apply calculateWinner_Draw].
Qed.

(** X2. Every [null] cell can be the computer's choice: for each such cell
    there is a value of [Math.random()] for which [getRandomEmptyIndex]
    returns its index. *)
Theorem getRandomEmptyIndex_every_empty squares i :
  squares !! i = Some Null →
  ∃ r, getRandomEmptyIndex squares r = Some i.
Proof.
  intros Hi%elem_of_empties.
  apply list_elem_of_lookup_1 in Hi as [k Hk].
  pose proof (lookup_lt_Some _ _ _ Hk) as Hlt.
  exists {| rnum := k; rgap := length (empties squares) - k - 1 |}.
  unfold getRandomEmptyIndex. rewrite decide_False by lia.
  unfold floorTimes. simpl.
  replace (k + (length (empties squares) - k - 1) + 1)
    with (length (empties squares)) by lia.
  rewrite Nat.div_mul by lia. done.
Qed.

Lemma getRandomEmptyIndex_every_empty_witness :
  ∃ r, getRandomEmptyIndex
         [Mk MarkX; Null; Mk MarkO; Null; Mk MarkX; Null; Null; Null; Null] r
       = Some 5.
Proof. apply getRandomEmptyIndex_every_empty. reflexivity. Defined.

(** ** More invariants of the reachable states *)

Section invariants.
Implicit Types (s : state) (i j : nat) (mo : option mark) (m : mark) (e : event).

Lemma aiTurn_spec s :
  aiTurn s = true ↔ mode s = ai ∧ winLine s = None ∧ isXNext s = false.
Proof.
  unfold aiTurn. split.
  - intros [[Hm Hw]%andb_true_iff Hx%negb_true_iff]%andb_true_iff.
    apply bool_decide_eq_true in Hm. by destruct (winLine s).
  - intros (Hm & Hw & Hx). by rewrite Hm, Hw, Hx.
Qed.

(** A call of the component's own places the mark of the player to move. *)
Lemma markFor_ownCall s mo :
  ownCall s mo → markFor s mo = if isXNext s then MarkX else MarkO.
Proof. by intros [->|[-> ->]]. Qed.

(** Induction over the reachable states, with the facts already known
    about the state a move starts from. *)
Lemma reachable_invariant (P : state → Prop) :
  P mounted →
  (∀ s, P (handleReset s)) →
  (∀ s k, P (handleModeChange k s)) →
  (∀ s, P s → P (winnerEffect s)) →
  (∀ s i mo,
     reachable s → P s → ownCall s mo →
     winLine s = None → truthy (get (squares s) i) = false →
     ¬ computersSlot s mo →
     P (handleSquare s i mo)) →
  ∀ s, reachable s → P s.
Proof.
  intros Hmount Hreset Hmode Heffect Hmove.
  assert (∀ s i mo, reachable s → P s → ownCall s mo → P (applyMove s i mo))
    as Happly.
  { intros s i mo Hreach Hs Hcall.
    destruct (handleSquare_cases s i mo) as [Hsame|(Hw & Hfree & Hslot)].
    - by rewrite applyMove_reject.
    - rewrite applyMove_accept by done. by apply Heffect, Hmove. }
  induction 1 as [|s e Hreach IH]; [done|].
  destruct e as [i|r| |k]; simpl.
  - apply Happly; [done..|]. by left.
  - destruct (aiTurn s) eqn:Hturn; [|done]. unfold aiMove.
    destruct (getRandomEmptyIndex _ _); [|done].
    apply Happly; [done..|]. right. split; [done|].
    by apply aiTurn_spec in Hturn as (_ & _ & ?).
  - apply Heffect, Hreset.
  - apply Heffect, Hmode.
Qed.

Lemma reachable_stepCounts s : reachable s → stepCounts s.
Proof.
  apply reachable_invariant; try done.
  intros s' i mo _ Hs _ Hw Hfree Hslot.
  rewrite handleSquare_accept by done. unfold stepCounts in *. simpl.
  rewrite !countMark_arraySet by done. rewrite Hs.
  destruct (markFor s' mo); repeat case_decide; simplify_eq; lia.
Qed.

(** Writing mark [m] into a free cell of a board without a held line gives
    a board on which only [m] can hold a line. *)
Lemma wins_arraySet (squares : list cell) i m l m' :
  (∀ m0, ¬ wins squares l m0) →
  wins (arraySet squares i (Mk m)) l m' → m' = m.
Proof.
  destruct l as [[a b] c]. intros Hno (Ha & Hb & Hc).
  destruct (decide (a = i)) as [->|Hai];
    [rewrite get_arraySet_eq in Ha; congruence|].
  destruct (decide (b = i)) as [->|Hbi];
    [rewrite get_arraySet_eq in Hb; congruence|].
  destruct (decide (c = i)) as [->|Hci];
    [rewrite get_arraySet_eq in Hc; congruence|].
  rewrite get_arraySet_ne in Ha, Hb, Hc by done.
  by destruct (Hno m').
Qed.

Lemma empty_board_no_wins l m : l ∈ lines → ¬ wins (replicate 9 Null) l m.
Proof.
  intros Hin. repeat (apply elem_of_cons in Hin as [->|Hin]);
    try (by apply elem_of_nil in Hin); by intros (? & _).
Qed.

Lemma reachable_ownsLines s : reachable s → ownsLines s.
Proof.
  apply reachable_invariant; try done.
  - intros l m Hin Hwin. by destruct (empty_board_no_wins l m).
  - intros s' l m Hin Hwin. by destruct (empty_board_no_wins l m).
  - intros s' k l m Hin Hwin. by destruct (empty_board_no_wins l m).
  - intros s' i mo Hreach _ Hcall Hw Hfree Hslot l m Hin.
    rewrite handleSquare_accept by done. unfold lastMover. simpl.
    rewrite (markFor_ownCall _ _ Hcall). intros Hwin.
    apply wins_arraySet in Hwin.
    + subst m. by destruct (isXNext s').
    + intros m0.
      pose proof (settled_winLine s' (reachable_settled s' Hreach)) as Hset.
      rewrite Hw in Hset.
      destruct (calculateWinner (squares s')) eqn:Hres; [done|].
      apply calculateWinner_None in Hres as [Hno _]. by apply Hno.
Qed.

(** A move never touches a cell that holds a mark, nor the mode. *)
Lemma handleSquare_keeps s i mo j m :
  get (squares s) j = Mk m → get (squares (handleSquare s i mo)) j = Mk m.
Proof.
  intros Hj.
  destruct (handleSquare_cases s i mo) as [->|(Hw & Hfree & Hslot)]; [done|].
  rewrite handleSquare_accept by done. simpl.
  rewrite get_arraySet_ne; [done|]. intros ->. by rewrite Hj in Hfree.
Qed.

Lemma applyMove_keeps s i mo j m :
  get (squares s) j = Mk m → get (squares (applyMove s i mo)) j = Mk m.
Proof.
  intros Hj. destruct (applyMove_cases s i mo) as [->| ->]; [done|].
  by apply handleSquare_keeps.
Qed.

Lemma handleSquare_mode s i mo : mode (handleSquare s i mo) = mode s.
Proof.
  destruct (handleSquare_cases s i mo) as [->|(Hw & Hfree & Hslot)]; [done|].
  by rewrite handleSquare_accept.
Qed.

Lemma applyMove_mode s i mo : mode (applyMove s i mo) = mode s.
Proof.
  destruct (applyMove_cases s i mo) as [->| ->]; [done|].
  apply handleSquare_mode.
Qed.
End invariants.

(** X3. A click on a square and a firing of the computer's timer never
    change a cell that already holds a mark, and never change the mode:
    marks stay where they are until a reset or a change of mode. *)
Theorem dispatch_keeps_marks s e j m :
  (∀ k, e ≠ ModeClick k) → e ≠ ResetClick →
  get (squares s) j = Mk m →
  get (squares (dispatch s e)) j = Mk m ∧ mode (dispatch s e) = mode s.
Proof.
  intros Hmode Hreset Hj. destruct e as [i|r| |k]; simpl.
  - split; [by apply applyMove_keeps | apply applyMove_mode].
  - destruct (aiTurn s); [|done]. unfold aiMove.
    destruct (getRandomEmptyIndex _ _); [|done].
    split; [by apply applyMove_keeps | apply applyMove_mode].
  - done.
  - by destruct (Hmode k).
Qed.

Lemma dispatch_keeps_marks_witness :
  let s := run mounted [ModeClick ai; SquareClick 4] in
  get (squares (dispatch s (TimerFired {| rnum := 3; rgap := 1 |}))) 4
  = Mk MarkX.
Proof.
  intros s.
  apply (dispatch_keeps_marks s (TimerFired {| rnum := 3; rgap := 1 |}) 4 MarkX);
    [intros k Hk; discriminate Hk | intros Hk; discriminate Hk | reflexivity].
Defined.

(** X4. In every reachable state [step] is the number of marks on the
    board. *)
Theorem reachable_step_counts_marks s :
  reachable s →
  step s = countMark MarkX (squares s) + countMark MarkO (squares s).
Proof. apply reachable_stepCounts. Qed.

Lemma reachable_step_counts_marks_witness :
  let s := run mounted [SquareClick 4; SquareClick 4; SquareClick 0] in
  step s = countMark MarkX (squares s) + countMark MarkO (squares s).
Proof.
  intros s. apply reachable_step_counts_marks.
  apply reachable_run, reachable_mounted.
Defined.

(** X5. In every reachable state a line held by one mark is held by the
    player who moved last (O when X is next, X when O is): the two marks
    never both hold a line, and a winner [calculateWinner] reports is the
    player who moved last. *)
Theorem reachable_winner_moved_last s :
  reachable s →
  (∀ l m, l ∈ lines → wins (squares s) l m → m = lastMover s) ∧
  (∀ m cells,
     calculateWinner (squares s) = Some (Result.make (WinnerMark m) cells) →
     m = lastMover s).
Proof.
  intros Hown%reachable_ownsLines. split; [exact Hown|].
  intros m cells (t & Hin & Hwin & _)%calculateWinner_Win.
  by apply (Hown t).
Qed.

Lemma reachable_winner_moved_last_witness :
  let s := run mounted [SquareClick 0; SquareClick 3; SquareClick 1;
                        SquareClick 4; SquareClick 2] in
  calculateWinner (squares s)
  = Some (Result.make (WinnerMark MarkX) [0; 1; 2]) ∧
  MarkX = lastMover s.
Proof.
  intros s. split; [reflexivity|].
  apply (proj2 (reachable_winner_moved_last s
                  (reachable_run _ _ reachable_mounted)) MarkX [0; 1; 2]).
  reflexivity.
Defined.

(** ** Status line, computer moves and turns *)

Section turns.
Implicit Types (s : state) (i j : nat) (mo : option mark) (m : mark) (r : random).

Lemma settled_status s :
  settled s → status s = statusOf (calculateWinner (squares s)) (isXNext s).
Proof. unfold settled. intros Hs. by rewrite <- Hs at 1. Qed.

(** On the computer's turn a reachable board has a [null] cell. *)
Lemma aiTurn_has_empty s :
  reachable s → winLine s = None → Null ∈ squares s.
Proof.
  intros Hset%reachable_settled Hw. apply settled_winLine in Hset.
  rewrite Hw in Hset.
  destruct (calculateWinner (squares s)) eqn:Hres; [done|].
  by apply calculateWinner_None in Hres as [_ ?].
Qed.
End turns.

(** The three shapes a settled state can have. *)
Lemma reachable_status_cases s :
  reachable s →
  (winLine s = None ∧ calculateWinner (squares s) = None ∧
   status s = ("Current: " +:+ (if isXNext s then "X" else "O"))%string) ∨
  (∃ m t, t ∈ lines ∧ wins (squares s) t m ∧
          winLine s = Some (lineCells t) ∧
          status s = ("Winner: " +:+ markString m)%string) ∨
  (winLine s = Some [] ∧ (Null ∉ squares s) ∧
   (∀ l m, l ∈ lines → ¬ wins (squares s) l m) ∧
   status s = "It's a Draw!"%string).
Proof.
  intros Hset%reachable_settled.
  pose proof (settled_winLine s Hset) as Hline.
  pose proof (settled_status s Hset) as Hstatus.
  destruct (calculateWinner (squares s)) as [[[m|] cells]|] eqn:Hres.
  - right. left.
    destruct (calculateWinner_Win _ _ _ Hres) as (t & Hin & Hwin & ->).
    by exists m, t.
  - right. right.
    apply calculateWinner_Draw in Hres as (-> & Hno & Hnull). done.
  - by left.
Qed.

(** X6. In every reachable state the status line and the stored win line
    tell the same story as the board: either no line is held, some cell is
    [null], no win line is stored and the status names the player to move;
    or the status names a winner whose mark holds the stored win line, one
    of the eight; or the status is the draw, the stored win line is empty,
    no line is held and no cell is [null]. *)
Theorem reachable_status s :
  reachable s →
  (winLine s = None ∧ calculateWinner (squares s) = None ∧
   status s = ("Current: " +:+ (if isXNext s then "X" else "O"))%string) ∨
  (∃ m t, t ∈ lines ∧ wins (squares s) t m ∧
          winLine s = Some (lineCells t) ∧
          status s = ("Winner: " +:+ markString m)%string) ∨
  (winLine s = Some [] ∧ (Null ∉ squares s) ∧
   (∀ l m, l ∈ lines → ¬ wins (squares s) l m) ∧
   status s = "It's a Draw!"%string).
Proof. apply reachable_status_cases. Qed.

Lemma reachable_status_witness :
  let s := run mounted [SquareClick 0; SquareClick 3; SquareClick 1;
                        SquareClick 4; SquareClick 2] in
  status s = "Winner: X"%string ∧ winLine s = Some [0; 1; 2].
Proof.
  intros s.
  destruct (reachable_status s (reachable_run _ _ reachable_mounted))
    as [(Hline & _)|[(m & t & _ & _ & Hline & Hstatus)|(Hline & _)]].
  - vm_compute in Hline. discriminate Hline.
  - destruct m.
    + split; [exact Hstatus | reflexivity].
    + vm_compute in Hstatus. discriminate Hstatus.
  - vm_compute in Hline. discriminate Hline.
Defined.

(** X7. The computer never passes: when its timer fires in a reachable
    state with mode "ai", no win line stored and O to move, the board has a
    [null] cell, and the move writes "O" into one such cell, leaves the
    other cells alone, hands the turn to X and adds one to [step]. *)
Theorem aiMove_places_O s r :
  reachable s →
  aiTurn s = true →
  ∃ i, squares s !! i = Some Null ∧
       squares (dispatch s (TimerFired r)) = <[i := Mk MarkO]> (squares s) ∧
       isXNext (dispatch s (TimerFired r)) = true ∧
       step (dispatch s (TimerFired r)) = step s + 1.
Proof.
  intros Hreach Hturn. simpl. rewrite Hturn. unfold aiMove.
  apply aiTurn_spec in Hturn as (Hmode & Hw & Hx).
  destruct (getRandomEmptyIndex (squares s) r) as [i|] eqn:Hpick.
  - apply getRandomEmptyIndex_Some in Hpick.
    exists i. split; [done|].
    assert (truthy (get (squares s) i) = false) as Hfree
      by (by rewrite (get_lookup _ _ _ Hpick)).
    assert (¬ computersSlot s (Some MarkO)) as Hslot
      by (by intros (_ & _ & ?)).
    rewrite applyMove_accept, handleSquare_accept by done. simpl.
    rewrite Hx. repeat split.
    apply arraySet_inside. by eapply lookup_lt_Some.
  - apply getRandomEmptyIndex_None in Hpick.
    destruct Hpick. by apply aiTurn_has_empty.
Qed.

Lemma aiMove_places_O_witness :
  let s := run mounted [ModeClick ai; SquareClick 4] in
  ∃ i, squares s !! i = Some Null ∧
       squares (dispatch s (TimerFired {| rnum := 2; rgap := 0 |}))
       = <[i := Mk MarkO]> (squares s) ∧
       isXNext (dispatch s (TimerFired {| rnum := 2; rgap := 0 |})) = true ∧
       step (dispatch s (TimerFired {| rnum := 2; rgap := 0 |})) = step s + 1.
Proof.
  intros s. apply aiMove_places_O.
  - apply reachable_run, reachable_mounted.
  - reflexivity.
Defined.

(** X8. In mode "ai" the human cannot move twice in a row: after a click
    that changed the state, every further click on a square changes
    nothing, until the timer, the reset button or a mode button acts. *)
Theorem ai_mode_no_double_move s i j :
  mode s = ai →
  dispatch s (SquareClick i) ≠ s →
  dispatch (dispatch s (SquareClick i)) (SquareClick j)
  = dispatch s (SquareClick i).
Proof.
  simpl. intros Hmode Hmoved.
  destruct (handleSquare_cases s i None) as [Hsame|(Hw & Hfree & Hslot)].
  { destruct Hmoved. by apply applyMove_reject. }
  apply applyMove_reject, handleSquare_computersSlot.
  rewrite applyMove_accept, handleSquare_accept by done.
  repeat split; simpl; [done|].
  destruct (isXNext s) eqn:Hx; [done|]. by destruct Hslot.
Qed.

Lemma ai_mode_no_double_move_witness :
  let s := run mounted [ModeClick ai] in
  dispatch (dispatch s (SquareClick 4)) (SquareClick 0)
  = dispatch s (SquareClick 4).
Proof.
  intros s. apply ai_mode_no_double_move.
  - reflexivity.
  - intros Heq. apply (f_equal step) in Heq. vm_compute in Heq.
    discriminate Heq.
Defined.

(** ** What the rendered page can reach *)

Section page.
Implicit Types (s : state) (i j : nat) (mo : option mark) (m : mark) (e : event).

Lemma reachableUI_reachable s : reachableUI s → reachable s.
Proof. induction 1; by constructor. Qed.

Lemma reachableUI_run s (es : list event) :
  reachableUI s → allOffered s es = true → reachableUI (run s es).
Proof.
  revert s. induction es as [|e es IH]; intros s Hs Hall; [done|].
  simpl in Hall. apply andb_true_iff in Hall as [He Hes].
  simpl. apply IH; [|done]. by constructor.
Qed.

Lemma hasSquare_lt s i : hasSquare s i = true → i < length (squares s).
Proof.
  unfold hasSquare. destruct (squares s !! i) eqn:Hi; [|done].
  intros _. by eapply lookup_lt_Some.
Qed.

Lemma applyMove_wellFormed s i mo :
  i < length (squares s) → wellFormed s → wellFormed (applyMove s i mo).
Proof.
  intros Hi [Hlen Hall].
  destruct (applyMove_cases s i mo) as [->| ->]; [done|].
  destruct (handleSquare_cases s i mo) as [->|(Hw & Hfree & Hslot)]; [done|].
  rewrite handleSquare_accept by done. unfold wellFormed. simpl.
  rewrite arraySet_inside by done. split.
  - by rewrite length_insert.
  - by apply Forall_insert.
Qed.

Lemma fresh_wellFormed k s : wellFormed (handleModeChange k s).
Proof. split; [done|]. simpl. by repeat constructor. Qed.

Lemma reachableUI_wellFormed s : reachableUI s → wellFormed s.
Proof.
  induction 1 as [|s e Hreach IH Hoff].
  - apply (fresh_wellFormed pvp initial).
  - destruct e as [i|r| |k]; simpl in *.
    + apply andb_true_iff in Hoff as [Hi%hasSquare_lt _].
      by apply applyMove_wellFormed.
    + destruct (aiTurn s); [|done]. unfold aiMove.
      destruct (getRandomEmptyIndex _ _) as [i|] eqn:Hpick; [|done].
      apply applyMove_wellFormed; [|done].
      apply getRandomEmptyIndex_Some in Hpick. by eapply lookup_lt_Some.
    + apply (fresh_wellFormed (mode s) s).
    + apply (fresh_wellFormed k s).
Qed.

(** Marks never outnumber the slots, and fill a board without holes
    exactly when it has no [null]. *)
Lemma countMark_le (arr : list cell) :
  countMark MarkX arr + countMark MarkO arr ≤ length arr.
Proof.
  induction arr as [|c arr IH]; [done|].
  rewrite !countMark_cons. simpl. repeat case_decide; simplify_eq; lia.
Qed.

Lemma countMark_full (arr : list cell) :
  Forall (λ c, c ≠ Hole) arr →
  countMark MarkX arr + countMark MarkO arr = length arr ↔ Null ∉ arr.
Proof.
  induction 1 as [|c arr Hc Hall IH]; [by split; [intros _ ?%elem_of_nil|]|].
  pose proof (countMark_le arr) as Hle.
  rewrite !countMark_cons, not_elem_of_cons. simpl.
  destruct c as [| |[]]; [|done|..]; repeat case_decide; simplify_eq.
  - split; [lia | by intros [? _]].
  - rewrite <- IH. split; [intros; split; [done|lia] | intros [_ ?]; lia].
  - rewrite <- IH. split; [intros; split; [done|lia] | intros [_ ?]; lia].
Qed.
End page.

(** X9. A state reached through the rendered page (clicks on buttons that
    exist and are not disabled, timer firings, reset and mode buttons) has
    a board of exactly nine slots, each [null] or a mark: the sparse arrays
    a write past the end would make never arise there. *)
Theorem reachableUI_board s :
  reachableUI s →
  length (squares s) = 9 ∧
  ∀ i, i < 9 → squares s !! i = Some Null ∨ ∃ m, squares s !! i = Some (Mk m).
Proof.
  intros [Hlen Hall]%reachableUI_wellFormed. split; [done|].
  intros i Hi. rewrite <- Hlen in Hi.
  apply lookup_lt_is_Some_2 in Hi as [c Hc].
  rewrite Forall_forall in Hall.
  specialize (Hall c (list_elem_of_lookup_2 _ _ _ Hc)).
  destruct c as [| |m]; [by left | done | right; by exists m].
Qed.

Lemma reachableUI_board_witness :
  let s := run mounted [SquareClick 4; SquareClick 0] in
  length (squares s) = 9.
Proof.
  intros s. apply reachableUI_board.
  apply (reachableUI_run mounted [SquareClick 4; SquareClick 0]).
  - apply reachableUI_mounted.
  - vm_compute. reflexivity.
Defined.

(** X10. Through the rendered page a game takes at most nine moves:
    [step] never passes 9, it is 9 exactly when no cell is [null], and then
    the game is over, with five X and four O on the board and X the last
    to have moved. *)
Theorem reachableUI_nine_moves s :
  reachableUI s →
  step s ≤ 9 ∧
  (step s = 9 ↔ Null ∉ squares s) ∧
  (step s = 9 →
   winLine s ≠ None ∧ isXNext s = false ∧
   countMark MarkX (squares s) = 5 ∧ countMark MarkO (squares s) = 4).
Proof.
  intros Hui.
  pose proof (reachableUI_wellFormed s Hui) as [Hlen Hall].
  pose proof (reachableUI_reachable s Hui) as Hreach.
  pose proof (reachable_stepCounts s Hreach) as Hstep.
  pose proof (reachable_alternating s Hreach) as Halt.
  pose proof (countMark_le (squares s)) as Hle.
  pose proof (countMark_full (squares s) Hall) as Hfull.
  unfold stepCounts in Hstep. unfold alternating in Halt.
  rewrite Hlen in Hle, Hfull.
  split; [lia|]. split; [by rewrite Hstep|].
  intros Hnine. split.
  - intros Hw. apply (aiTurn_has_empty s Hreach) in Hw.
    apply Hfull in Hw; [done|lia].
  - destruct (isXNext s); [lia|]. split; [done|lia].
Qed.

Lemma reachableUI_nine_moves_witness :
  let s := run mounted [SquareClick 0; SquareClick 1; SquareClick 2;
                        SquareClick 4; SquareClick 3; SquareClick 5;
                        SquareClick 7; SquareClick 6; SquareClick 8] in
  step s = 9 ∧ winLine s ≠ None ∧ countMark MarkX (squares s) = 5.
Proof.
  intros s.
  assert (reachableUI s) as Hui.
  { apply reachableUI_run; [apply reachableUI_mounted|].
    vm_compute. reflexivity. }
  destruct (reachableUI_nine_moves s Hui) as (_ & _ & Hnine).
  destruct (Hnine eq_refl) as (Hw & _ & Hx & _).
  split; [reflexivity|]. split; [exact Hw | exact Hx].
Defined.

(** X11. The [disabled] attribute of a square agrees with the first test of
    [handleSquare]: a call for a disabled square changes nothing, whatever
    mark is passed; a call for an enabled one is accepted and writes its
    mark there, unless it is a click in the computer's slot. *)
Theorem squareDisabled_handleSquare s i :
  (squareDisabled s i = true → ∀ mo, handleSquare s i mo = s) ∧
  (squareDisabled s i = false →
   ∀ mo, ¬ computersSlot s mo →
         handleSquare s i mo ≠ s ∧
         get (squares (handleSquare s i mo)) i = Mk (markFor s mo)).
Proof.
  unfold squareDisabled. split.
  - intros Hdis mo. unfold handleSquare. by rewrite Hdis.
  - intros [Hw Hfree]%orb_false_iff mo Hslot.
    assert (winLine s = None) as Hnone by (by destruct (winLine s)).
    split; [by apply handleSquare_accept_ne|].
    rewrite handleSquare_accept by done. apply get_arraySet_eq.
Qed.

Lemma squareDisabled_handleSquare_witness :
  let s := run mounted [SquareClick 4] in
  handleSquare s 4 None = s ∧
  get (squares (handleSquare s 0 None)) 0 = Mk MarkO.
Proof.
  intros s. split.
  - apply (proj1 (squareDisabled_handleSquare s 4)). reflexivity.
  - apply (proj2 (squareDisabled_handleSquare s 0)); [reflexivity|].
    intros (Hmode & _). vm_compute in Hmode. discriminate Hmode.
Defined.

(** X12. In a reachable state a square is highlighted as winning only if it
    holds the mark of the winner the status line names, and that winner is
    the player who moved last; nothing is highlighted in a draw or while
    the game goes on. *)
Theorem isWinning_winner s i :
  reachable s →
  isWinning s i = true →
  ∃ m, get (squares s) i = Mk m ∧
       status s = ("Winner: " +:+ markString m)%string ∧
       m = lastMover s.
Proof.
  intros Hreach Hhigh. unfold isWinning in Hhigh.
  destruct (reachable_status_cases s Hreach)
    as [(Hline & _)|[(m & t & Hin & Hwin & Hline & Hstatus)|(Hline & _)]];
    rewrite Hline in Hhigh; [done| |].
  - apply bool_decide_eq_true in Hhigh. exists m. split; [|split; [done|]].
    + by eapply wins_cells.
    + by apply (reachable_ownsLines s Hreach t).
  - apply bool_decide_eq_true in Hhigh. by apply elem_of_nil in Hhigh.
Qed.

Lemma isWinning_winner_witness :
  let s := run mounted [SquareClick 0; SquareClick 3; SquareClick 1;
                        SquareClick 4; SquareClick 2] in
  ∃ m, get (squares s) 1 = Mk m ∧
       status s = ("Winner: " +:+ markString m)%string ∧
       m = lastMover s.
Proof.
  intros s. apply isWinning_winner.
  - apply reachable_run, reachable_mounted.
  - reflexivity.
Defined.

(** X13. After [n] clicks on the theme button of a mounted component the
    theme is "light" when [n] is even and "dark" when it is odd, and the
    label of the button always names the theme the next click sets. *)
Theorem themeAfter_parity n :
  themeAfter n = (if Nat.even n then "light" else "dark")%string ∧
  themeLabel (themeAfter n)
  = ("Switch to " +:+ themeAfter (S n) +:+ " mode")%string.
Proof.
  assert (∀ k, themeAfter k = (if Nat.even k then "light" else "dark")%string)
    as Hpar.
  { induction k as [|k IH]; [done|].
    unfold themeAfter in *. rewrite Nat.iter_succ, IH.
    rewrite Nat.even_succ, <- Nat.negb_even.
    by destruct (Nat.even k). }
  split; [apply Hpar|].
  unfold themeAfter at 2. rewrite Nat.iter_succ. fold (themeAfter n).
  reflexivity.
Qed.

(** X14. Once a win line is stored (a win or a draw) neither a click on a
    square nor a firing of the timer changes anything: only the reset
    button and the mode buttons lead out of a finished game. *)
Theorem game_over_is_final s e :
  winLine s ≠ None →
  (∀ k, e ≠ ModeClick k) → e ≠ ResetClick →
  dispatch s e = s.
Proof.
  intros Hover Hmode Hreset. destruct e as [i|r| |k]; simpl.
  - by apply applyMove_reject, handleSquare_gameOver.
  - destruct (aiTurn s) eqn:Hturn; [|done].
    by apply aiTurn_spec in Hturn as (_ & ? & _).
  - done.
  - by destruct (Hmode k).
Qed.

Lemma game_over_is_final_witness :
  let s := run mounted [ModeClick ai; SquareClick 0; SquareClick 3;
                        TimerFired {| rnum := 0; rgap := 0 |};
                        SquareClick 4; TimerFired {| rnum := 0; rgap := 0 |};
                        SquareClick 8] in
  status s = "Winner: X"%string ∧
  dispatch s (TimerFired {| rnum := 1; rgap := 1 |}) = s.
Proof.
  intros s. split; [reflexivity|].
  apply game_over_is_final.
  - intros Hw. vm_compute in Hw. discriminate Hw.
  - intros k Hk. discriminate Hk.
  - intros Hk. discriminate Hk.
Defined.
